(** * Kolibri device management: state getters and constant catalogs

    A shallow embedding of

    - [device_management/state/getters.js]: the five accessors
      [wizardState], [selectedNodes], [availableChannels],
      [driveChannelList] and [installedChannelList];
    - the constants module: [PageNames], [ContentWizardPages],
      [TaskTypes], [TaskStatuses], [TransferTypes].

    The getters are JavaScript functions over an externally owned state
    tree.  JavaScript objects and arrays are references into a heap, a
    property read on [undefined] or [null] throws a [TypeError], and the
    array literal [[]] allocates.  The embedding keeps all three: values
    are primitives or locations, the heap is a finite map from locations
    to objects and arrays, and the accessors run in a state-and-error
    monad over the heap. *)

From Corelib Require Import PrimFloat.
From stdpp Require Import base option list gmap strings.

Local Open Scope string_scope.

(** ** JavaScript values and the heap *)

Definition loc := positive.

(** A value is a primitive or a reference to a heap-allocated object or
    array.  Numbers are IEEE 754 doubles. *)
Inductive value : Type :=
  | VUndefined
  | VNull
  | VBool (b : bool)
  | VNumber (x : PrimFloat.float)
  | VString (s : string)
  | VRef (l : loc).
Arguments VRef l%_positive.

(** Heap cells: a plain object with its own data properties, or an array
    with its elements in index order. *)
Inductive hobj : Type :=
  | HObject (props : gmap string value)
  | HArray (elems : list value).

Abbreviation heap := (gmap loc hobj).

(** What the host environment throws.  [CannotReadProperty] and
    [NotAFunction] are the two [TypeError]s the getters can meet.
    [DanglingReference] has no JavaScript counterpart: it marks a read
    through a location the heap does not hold, which a heap built by a
    JavaScript program never contains. *)
Inductive error : Type :=
  | CannotReadProperty (base : value) (key : string)
  | NotAFunction (base : value) (key : string)
  | DanglingReference (l : loc).

Inductive outcome (A : Type) : Type :=
  | Return (a : A)
  | Throw (e : error).
Arguments Return {A} a.
Arguments Throw {A} e.

(** ** The evaluation monad: heap passing with exceptions *)

Definition JS (A : Type) : Type := heap → outcome A * heap.

Definition ret {A} (a : A) : JS A := fun h => (Return a, h).

Definition throw {A} (e : error) : JS A := fun h => (Throw e, h).

Definition bind {A B} (m : JS A) (k : A → JS B) : JS B :=
  fun h =>
    match m h with
    | (Return a, h') => k a h'
    | (Throw e, h') => (Throw e, h')
    end.

Notation "'let!' x ':=' m 'in' k" := (bind m (fun x => k))
  (at level 10, x name, m at level 100, k at level 200).

(** ** Primitive operations of the host *)

(** [v.k] for a data property [k].  The getters read ten property names
    ([pageState], [wizardState], [selectedItems], [nodes],
    [availableChannels], [driveList], [channelList], [id], [metadata],
    [channels]); none of them is supplied by [Object.prototype],
    [Array.prototype] or the wrappers of the primitives, so on an array
    or a non-nullish primitive such a read yields [undefined]. *)
Definition read (h : heap) (v : value) (k : string) : outcome value :=
  match v with
  | VUndefined | VNull => Throw (CannotReadProperty v k)
  | VBool _ | VNumber _ | VString _ => Return VUndefined
  | VRef l =>
      match h !! l with
      | None => Throw (DanglingReference l)
      | Some (HObject props) => Return (default VUndefined (props !! k))
      | Some (HArray _) => Return VUndefined
      end
  end.

Definition get (v : value) (k : string) : JS value :=
  fun h => (read h v k, h).

(** An array or object literal: a fresh location is added to the heap. *)
Definition alloc (o : hobj) : JS value :=
  fun h => let l := fresh (dom h) in (Return (VRef l), <[l := o]> h).

(** [a === b] *)
Definition strict_equal (a b : value) : bool :=
  match a, b with
  | VUndefined, VUndefined => true
  | VNull, VNull => true
  | VBool x, VBool y => bool_decide (x = y)
  | VNumber x, VNumber y => PrimFloat.eqb x y
  | VString x, VString y => bool_decide (x = y)
  | VRef x, VRef y => bool_decide (x = y)
  | _, _ => false
  end.

(** [ToBoolean], as applied by the conditional operator. *)
Definition to_boolean (v : value) : bool :=
  match v with
  | VUndefined | VNull => false
  | VBool b => b
  | VNumber x => negb (PrimFloat.is_zero x || PrimFloat.is_nan x)
  | VString s => negb (bool_decide (s = ""))
  | VRef _ => true
  end.

(** The loop of [Array.prototype.find]: elements are visited in index
    order, the first one on which the callback is true is returned, and
    [undefined] when there is none.  An exception of the callback ends
    the loop. *)
Fixpoint find_loop (callback : value → JS bool) (elems : list value) : JS value :=
  match elems with
  | [] => ret VUndefined
  | d :: rest =>
      let! hit := callback d in
      if hit then ret d else find_loop callback rest
  end.

(** [arr.find(callback)]: reading [find] off [undefined] or [null] throws,
    an array runs the loop, anything else has no callable [find]. *)
Definition array_find (arr : value) (callback : value → JS bool) : JS value :=
  match arr with
  | VUndefined | VNull => throw (CannotReadProperty arr "find")
  | VBool _ | VNumber _ | VString _ => throw (NotAFunction arr "find")
  | VRef l =>
      fun h =>
        match h !! l with
        | None => (Throw (DanglingReference l), h)
        | Some (HArray elems) => find_loop callback elems h
        | Some (HObject _) => (Throw (NotAFunction arr "find"), h)
        end
  end.

(** ** getters.js *)

(** [return state.pageState.wizardState;] *)
Definition wizardState (state : value) : JS value :=
  let! pageState := get state "pageState" in
  get pageState "wizardState".

(** [return wizardState(state).selectedItems.nodes;] *)
Definition selectedNodes (state : value) : JS value :=
  let! ws := wizardState state in
  let! selectedItems := get ws "selectedItems" in
  get selectedItems "nodes".

(** [return wizardState(state).availableChannels;] *)
Definition availableChannels (state : value) : JS value :=
  let! ws := wizardState state in
  get ws "availableChannels".

(** The callback [d => d.id === driveId]. *)
Definition id_is (driveId : value) (d : value) : JS bool :=
  let! id := get d "id" in
  ret (strict_equal id driveId).

(** [wizardState(state).driveList.find(d => d.id === driveId)], the
    initialiser of [match]. *)
Definition find_match (state driveId : value) : JS value :=
  let! ws := wizardState state in
  let! driveList := get ws "driveList" in
  array_find driveList (id_is driveId).

(** [return function getListByDriveId(driveId) { ... }]: the closure
    captures [state]; its body reads the heap when it is applied.
    [return match ? match.metadata.channels : [];] *)
Definition driveChannelList (state : value) : value → JS value :=
  fun driveId =>
    let! found := find_match state driveId in
    if to_boolean found then
      let! metadata := get found "metadata" in
      get metadata "channels"
    else alloc (HArray []).

(** [return wizardState(state).channelList;] *)
Definition installedChannelList (state : value) : JS value :=
  let! ws := wizardState state in
  get ws "channelList".

(** ** The constants module *)

(** An object literal whose properties are string constants, as the
    list of its (key, value) pairs in source order. *)
Definition catalog := list (string * string).

Definition PageNames : catalog :=
  [ ("MANAGE_CONTENT_PAGE", "MANAGE_CONTENT_PAGE");
    ("MANAGE_PERMISSIONS_PAGE", "MANAGE_PERMISSIONS_PAGE");
    ("USER_PERMISSIONS_PAGE", "USER_PERMISSIONS_PAGE") ].

Definition ContentWizardPages : catalog :=
  [ ("CHOOSE_IMPORT_SOURCE", "CHOOSE_IMPORT_SOURCE");
    ("EXPORT", "EXPORT");
    ("IMPORT_LOCAL", "IMPORT_LOCAL");
    ("IMPORT_NETWORK", "IMPORT_NETWORK");
    ("AVAILABLE_CHANNELS", "AVAILABLE_CHANNELS") ].

Definition TaskTypes : catalog :=
  [ ("REMOTE_IMPORT", "remoteimport");
    ("LOCAL_IMPORT", "localimport");
    ("LOCAL_EXPORT", "localexport");
    ("DELETE_CHANNEL", "deletechannel") ].

Definition TaskStatuses : catalog :=
  [ ("IN_PROGRESS", "INPROGRESS");
    ("COMPLETED", "COMPLETED");
    ("FAILED", "FAILED");
    ("PENDING", "PENDING");
    ("RUNNING", "RUNNING");
    ("QUEUED", "QUEUED");
    ("SCHEDULED", "SCHEDULED") ].

Definition TransferTypes : catalog :=
  [ ("LOCALIMPORT", "localimport");
    ("REMOTEIMPORT", "remoteimport");
    ("LOCALEXPORT", "localexport") ].

Definition catalogs : list catalog :=
  [PageNames; ContentWizardPages; TaskTypes; TaskStatuses; TransferTypes].

(** [C.KEY] for a catalog [C]. *)
Definition lookup_key (c : catalog) (key : string) : option string :=
  snd <$> List.find (fun kv => bool_decide (kv.1 = key)) c.

Definition catalog_values (c : catalog) : list string := snd <$> c.

(** A token with its underscores dropped and its letters in lower case:
    the form in which a key and its value are compared below. *)
Definition lower_ascii (a : Ascii.ascii) : Ascii.ascii :=
  let n := Ascii.nat_of_ascii a in
  if (65 <=? n)%nat && (n <=? 90)%nat then Ascii.ascii_of_nat (n + 32)%nat else a.

Fixpoint fold_token (s : string) : string :=
  match s with
  | EmptyString => EmptyString
  | String a rest =>
      if bool_decide (a = Ascii.ascii_of_nat 95) then fold_token rest
      else String (lower_ascii a) (fold_token rest)
  end.

(** Every value of the catalog is the name of its key. *)
Definition self_describing (c : catalog) : Prop :=
  ∀ k v, (k, v) ∈ c → v = k.

(** ** Reading the state tree: the vocabulary of the statements *)

(** The own data property [k] of the object [v], when [v] is an object
    that has one: "the field [v.k] exists". *)
Definition own (h : heap) (v : value) (k : string) : option value :=
  match v with
  | VRef l =>
      match h !! l with
      | Some (HObject props) => props !! k
      | _ => None
      end
  | _ => None
  end.

(** The elements of [v], when [v] is an array. *)
Definition elements_of (h : heap) (v : value) : option (list value) :=
  match v with
  | VRef l =>
      match h !! l with
      | Some (HArray elems) => Some elems
      | _ => None
      end
  | _ => None
  end.

Definition is_object (h : heap) (v : value) : Prop :=
  match v with
  | VRef l =>
      match h !! l with
      | Some (HObject _) => True
      | _ => False
      end
  | _ => False
  end.

Definition nullish (v : value) : Prop := v = VUndefined ∨ v = VNull.

(** [v] is a primitive, or a reference the heap holds. *)
Definition allocated (h : heap) (v : value) : Prop :=
  match v with
  | VRef l => is_Some (h !! l)
  | _ => True
  end.

(** [v.k1.k2...kn], each step a property read of the host. *)
Fixpoint read_path (h : heap) (v : value) (ks : list string) : outcome value :=
  match ks with
  | [] => Return v
  | k :: ks' =>
      match read h v k with
      | Return v' => read_path h v' ks'
      | Throw e => Throw e
      end
  end.

(** [state.pageState.wizardState] exists. *)
Definition wizardState_exists (h : heap) (state : value) : Prop :=
  ∃ ps ws, own h state "pageState" = Some ps ∧ own h ps "wizardState" = Some ws.

(** [d.id === driveId] holds. *)
Definition id_matches (h : heap) (driveId d : value) : Prop :=
  match read h d "id" with
  | Return id => strict_equal id driveId = true
  | Throw _ => False
  end.

Global Instance id_matches_dec h driveId d : Decision (id_matches h driveId d).
Proof. unfold id_matches. destruct (read h d "id"); apply _. Defined.

(** [wizardState(state).driveList] is an array with elements [elems]. *)
Definition driveList_is (h : heap) (state : value) (elems : list value) : Prop :=
  ∃ ps ws dl,
    own h state "pageState" = Some ps ∧
    own h ps "wizardState" = Some ws ∧
    own h ws "driveList" = Some dl ∧
    elements_of h dl = Some elems.

(** [d] is the first element of [elems], in index order, whose id is
    [driveId]; it sits at index [i]. *)
Definition first_match (h : heap) (driveId : value) (elems : list value)
    (i : nat) (d : value) : Prop :=
  elems !! i = Some d ∧ id_matches h driveId d ∧
  ∀ j e, elems !! j = Some e → j < i → ¬ id_matches h driveId e.

(** A result that is a freshly allocated empty array. *)
Definition fresh_empty (h : heap) (r : outcome value * heap) : Prop :=
  ∃ l, h !! l = None ∧ r = (Return (VRef l), <[l := HArray []]> h).

(** A result that is an empty array, fresh or not. *)
Definition returns_empty (r : outcome value * heap) : Prop :=
  ∃ l, r.1 = Return (VRef l) ∧ r.2 !! l = Some (HArray []).

(** Two results are the same to an observer of values: the same outcome,
    or two freshly allocated empty arrays. *)
Definition same_result (h1 : heap) (r1 : outcome value * heap)
    (h2 : heap) (r2 : outcome value * heap) : Prop :=
  r1.1 = r2.1 ∨ (fresh_empty h1 r1 ∧ fresh_empty h2 r2).

(** The locations of the subtree under a value. *)
Definition children (o : hobj) (v : value) : Prop :=
  match o with
  | HObject props => ∃ k, props !! k = Some v
  | HArray elems => v ∈ elems
  end.

Inductive reach (h : heap) : value → loc → Prop :=
  | reach_root l : reach h (VRef l) l
  | reach_child l o v l' :
      h !! l = Some o → children o v → reach h v l' → reach h (VRef l) l'.

(** Two heaps hold the same subtree under [v]. *)
Definition agree_under (h1 h2 : heap) (v : value) : Prop :=
  ∀ l, reach h1 v l → h1 !! l = h2 !! l.

(** A set of locations that holds every reference stored in its own
    cells: a subtree, seen from its roots. *)
Definition refs_within (R : gset loc) (v : value) : Prop :=
  match v with
  | VRef l => l ∈ R
  | _ => True
  end.

Definition cell_within (h : heap) (R : gset loc) (l : loc) : Prop :=
  match h !! l with
  | Some (HObject props) => map_Forall (fun _ v => refs_within R v) props
  | Some (HArray elems) => Forall (refs_within R) elems
  | None => True
  end.

Definition subtree_closed (h : heap) (R : gset loc) : Prop :=
  set_Forall (cell_within h R) R.

Global Instance refs_within_dec R v : Decision (refs_within R v).
Proof. destruct v; simpl; apply _. Defined.

Global Instance cell_within_dec h R l : Decision (cell_within h R l).
Proof. unfold cell_within. destruct (h !! l) as [[props|elems]|]; apply _. Defined.

(** ** The scenario of the specification

    [driveList = [{id:'a', metadata:{channels:['x']}},
                  {id:'b', metadata:{channels:['y','z']}}]] and
    [selectedItems.nodes = ['n1','n2']], under a root object at
    location 1. *)
Definition scenario : heap :=
  list_to_map
    [ (1%positive, HObject (list_to_map [("pageState", VRef 2)]));
      (2%positive, HObject (list_to_map [("wizardState", VRef 3)]));
      (3%positive, HObject (list_to_map
          [("driveList", VRef 4); ("selectedItems", VRef 11);
           ("availableChannels", VRef 13); ("channelList", VRef 14)]));
      (4%positive, HArray [VRef 5; VRef 8]);
      (5%positive, HObject (list_to_map [("id", VString "a"); ("metadata", VRef 6)]));
      (6%positive, HObject (list_to_map [("channels", VRef 7)]));
      (7%positive, HArray [VString "x"]);
      (8%positive, HObject (list_to_map [("id", VString "b"); ("metadata", VRef 9)]));
      (9%positive, HObject (list_to_map [("channels", VRef 10)]));
      (10%positive, HArray [VString "y"; VString "z"]);
      (11%positive, HObject (list_to_map [("nodes", VRef 12)]));
      (12%positive, HArray [VString "n1"; VString "n2"]);
      (13%positive, HArray []);
      (14%positive, HArray [VString "installed"]) ].

(** A root whose [pageState] is an object without a [wizardState]. *)
Definition bare_pageState : heap :=
  list_to_map
    [ (1%positive, HObject (list_to_map [("pageState", VRef 2)]));
      (2%positive, HObject ∅) ].

(** Two drives with the same id: [[{id:'a', metadata:{channels:['x']}},
    {id:'a', metadata:{channels:[]}}]]. *)
Definition duplicate_ids : heap :=
  <[8%positive := HObject (list_to_map [("id", VString "a"); ("metadata", VRef 9)])]>
    (<[10%positive := HArray []]> scenario).

(** The drive ['b'] with no channels yet. *)
Definition empty_drive : heap := <[10%positive := HArray []]> scenario.

(** A drive list with a [null] entry before drive ['a']. *)
Definition null_before_match : heap :=
  <[4%positive := HArray [VNull; VRef 5]]> scenario.

(** A wizardState without a [driveList]. *)
Definition driveList_missing : heap :=
  <[3%positive := HObject ∅]> scenario.

(** The scenario under another root: the cells 1 and 2 carry further
    fields, the wizardState subtree (cells 3 to 14) is the same. *)
Definition scenario_other_root : heap :=
  <[1%positive := HObject (list_to_map [("pageState", VRef 2); ("core", VNull)])]>
    (<[2%positive := HObject (list_to_map
         [("wizardState", VRef 3); ("taskList", VUndefined)])]> scenario).

Definition scenario_subtree : gset loc :=
  list_to_set [3; 4; 5; 6; 7; 8; 9; 10; 11; 12; 13; 14]%positive.

(** Further heaps over the scenario.  A [null] entry after drive ['a']: *)
Definition null_after_match : heap :=
  <[4%positive := HArray [VRef 5; VNull]]> scenario.

(** Drive ['a'] with an empty [metadata] object. *)
Definition metadata_without_channels : heap :=
  <[6%positive := HObject ∅]> scenario.

(** Drive ['b'] without an [id]. *)
Definition drive_without_id : heap :=
  <[8%positive := HObject (list_to_map [("metadata", VRef 9)])]> scenario.

(** The four catalogs other than [TransferTypes]. *)
Definition primary_catalogs : list catalog :=
  [PageNames; ContentWizardPages; TaskTypes; TaskStatuses].

(** * Properties *)

(** ** The constant catalogs *)

Lemma self_describing_Forall (c : catalog) :
  Forall (fun kv => kv.2 = kv.1) c → self_describing c.
Proof.
  intros H k v Hin. rewrite Forall_forall in H. exact (H (k, v) Hin).
Qed.

Example lookup_REMOTE_IMPORT : lookup_key TaskTypes "REMOTE_IMPORT" = Some "remoteimport".
Proof. reflexivity. Qed.

Example lookup_IN_PROGRESS : lookup_key TaskStatuses "IN_PROGRESS" = Some "INPROGRESS".
Proof. reflexivity. Qed.

(** C1, as stated, fails: [TaskTypes] is one of the five catalogs and
    its key [REMOTE_IMPORT] maps to ['remoteimport']. *)
Lemma catalogs_not_all_self_describing :
  TaskTypes ∈ catalogs ∧
  ("REMOTE_IMPORT", "remoteimport") ∈ TaskTypes ∧
  ¬ (∀ c, c ∈ catalogs → self_describing c).
Proof.
  assert (Hc : TaskTypes ∈ catalogs)
    by (unfold catalogs; do 2 apply list_elem_of_further; apply list_elem_of_here).
  assert (Hk : ("REMOTE_IMPORT", "remoteimport") ∈ TaskTypes)
    by (unfold TaskTypes; apply list_elem_of_here).
  split_and!; [done | done |].
  intros H. specialize (H _ Hc _ _ Hk). discriminate H.
Qed.

(** C1 (amended): the value is the key's own name for every key of
    [PageNames] and [ContentWizardPages] and for every key of
    [TaskStatuses] but [IN_PROGRESS], whose value is ['INPROGRESS']; in
    all five catalogs the value is the key's name up to letter case and
    underscores. *)
Theorem catalog_values_name_their_keys :
  self_describing PageNames ∧
  self_describing ContentWizardPages ∧
  (∀ k v, (k, v) ∈ TaskStatuses → k ≠ "IN_PROGRESS" → v = k) ∧
  lookup_key TaskStatuses "IN_PROGRESS" = Some "INPROGRESS" ∧
  (∀ c, c ∈ catalogs → ∀ k v, (k, v) ∈ c → fold_token v = fold_token k).
Proof.
  split_and!.
  - apply self_describing_Forall. unfold PageNames. repeat constructor.
  - apply self_describing_Forall. unfold ContentWizardPages. repeat constructor.
  - intros k v Hin Hk.
    assert (HF : Forall (fun kv => kv.1 ≠ "IN_PROGRESS" → kv.2 = kv.1) TaskStatuses).
    { unfold TaskStatuses. repeat (constructor; try (by intros []); try done). }
    rewrite Forall_forall in HF. exact (HF (k, v) Hin Hk).
  - reflexivity.
  - intros c Hc k v Hin.
    assert (HF : Forall (Forall (fun kv => fold_token kv.2 = fold_token kv.1)) catalogs).
    { apply (bool_decide_unpack _). vm_compute. exact I. }
    rewrite Forall_forall in HF. specialize (HF c Hc).
    rewrite Forall_forall in HF. exact (HF (k, v) Hin).
Qed.

(** C5: every [TransferTypes] value is a [TaskTypes] value, and a
    [TaskTypes] value has no [TransferTypes] counterpart exactly when it
    is the value of [DELETE_CHANNEL]. *)
Theorem TransferTypes_within_TaskTypes :
  (∀ v, v ∈ catalog_values TransferTypes → v ∈ catalog_values TaskTypes) ∧
  (∀ v, v ∈ catalog_values TaskTypes →
        v ∉ catalog_values TransferTypes ↔
        lookup_key TaskTypes "DELETE_CHANNEL" = Some v).
Proof.
  split.
  - intros v Hv.
    assert (HF : Forall (fun v => v ∈ catalog_values TaskTypes)
                   (catalog_values TransferTypes)).
    { apply (bool_decide_unpack _). vm_compute. exact I. }
    rewrite Forall_forall in HF. exact (HF v Hv).
  - intros v Hv.
    assert (HF : Forall (fun v => v ∉ catalog_values TransferTypes ↔
                                  lookup_key TaskTypes "DELETE_CHANNEL" = Some v)
                   (catalog_values TaskTypes)).
    { apply (bool_decide_unpack _). vm_compute. exact I. }
    rewrite Forall_forall in HF. exact (HF v Hv).
Qed.

(** ** Strict equality and truthiness on the primitives *)

Example NaN_is_not_itself :
  strict_equal (VNumber PrimFloat.nan) (VNumber PrimFloat.nan) = false.
Proof. reflexivity. Qed.

Example zeros_are_equal :
  strict_equal (VNumber PrimFloat.zero) (VNumber PrimFloat.neg_zero) = true.
Proof. reflexivity. Qed.

Example undefined_is_not_null : strict_equal VUndefined VNull = false.
Proof. reflexivity. Qed.

Example falsy_primitives :
  to_boolean (VNumber PrimFloat.nan) = false ∧ to_boolean (VString "") = false ∧
  to_boolean (VNumber PrimFloat.neg_zero) = false ∧ to_boolean (VString "0") = true.
Proof. by vm_compute. Qed.

(** ** Property reads *)

Lemma own_read h v k w : own h v k = Some w → read h v k = Return w.
Proof.
  destruct v as [| | | | |l]; simpl; try discriminate.
  destruct (h !! l) as [[props|elems]|]; try discriminate.
  by intros ->.
Qed.

Lemma read_absent h v k :
  ¬ nullish v → allocated h v → own h v k = None → read h v k = Return VUndefined.
Proof.
  unfold nullish. destruct v as [| | | | |l]; simpl; try naive_solver.
  intros _ [o Ho]. rewrite Ho. destruct o as [props|elems]; [|done].
  by intros ->.
Qed.

Lemma read_nullish h v k : nullish v → read h v k = Throw (CannotReadProperty v k).
Proof. by intros [-> | ->]. Qed.

Lemma is_object_truthy h v : is_object h v → to_boolean v = true.
Proof. by destruct v. Qed.

Lemma is_object_read h v k : is_object h v → ∃ w, read h v k = Return w.
Proof.
  destruct v as [| | | | |l]; simpl; try done.
  destruct (h !! l) as [[props|elems]|]; try done. eauto.
Qed.

(** ** The accessors as path reads *)

(** Case analysis on every property read the goal inspects. *)
Ltac case_reads :=
  repeat match goal with
         | |- context [match read ?h ?v ?k with _ => _ end] =>
             destruct (read h v k)
         end;
  try reflexivity.

Lemma wizardState_path h state :
  wizardState state h = (read_path h state ["pageState"; "wizardState"], h).
Proof. unfold wizardState, bind, get. simpl. case_reads. Qed.

Lemma selectedNodes_path h state :
  selectedNodes state h =
  (read_path h state ["pageState"; "wizardState"; "selectedItems"; "nodes"], h).
Proof. unfold selectedNodes, wizardState, bind, get. simpl. case_reads. Qed.

Lemma availableChannels_path h state :
  availableChannels state h =
  (read_path h state ["pageState"; "wizardState"; "availableChannels"], h).
Proof. unfold availableChannels, wizardState, bind, get. simpl. case_reads. Qed.

Lemma installedChannelList_path h state :
  installedChannelList state h =
  (read_path h state ["pageState"; "wizardState"; "channelList"], h).
Proof. unfold installedChannelList, wizardState, bind, get. simpl. case_reads. Qed.

Lemma read_path_app h v ks1 ks2 :
  read_path h v (ks1 ++ ks2) =
  match read_path h v ks1 with
  | Return w => read_path h w ks2
  | Throw e => Throw e
  end.
Proof.
  revert v. induction ks1 as [|k ks1 IH]; intros v; simpl; [done|].
  destruct (read h v k); [apply IH | done].
Qed.

Lemma wizardState_own h state ps ws :
  own h state "pageState" = Some ps → own h ps "wizardState" = Some ws →
  wizardState state h = (Return ws, h).
Proof.
  intros H1 H2. rewrite wizardState_path. simpl.
  by rewrite (own_read _ _ _ _ H1), (own_read _ _ _ _ H2).
Qed.

(** ** wizardState *)

Example wizardState_scenario : wizardState (VRef 1) scenario = (Return (VRef 3), scenario).
Proof. vm_compute. reflexivity. Qed.

Example wizardState_of_undefined :
  wizardState VUndefined scenario =
  (Throw (CannotReadProperty VUndefined "pageState"), scenario).
Proof. reflexivity. Qed.

(** C6, as stated, fails: in [{pageState: {}}] the field
    [state.pageState.wizardState] is absent, and [wizardState] returns
    [undefined] with no access failure at all. *)
Lemma wizardState_absent_without_failure :
  ¬ wizardState_exists bare_pageState (VRef 1) ∧
  wizardState (VRef 1) bare_pageState = (Return VUndefined, bare_pageState) ∧
  ¬ (∀ h state, ¬ wizardState_exists h state →
                ∃ e, (wizardState state h).1 = Throw e).
Proof.
  assert (Hno : ¬ wizardState_exists bare_pageState (VRef 1)).
  { intros (ps & ws & Hps & Hws). vm_compute in Hps.
    injection Hps as <-. vm_compute in Hws. discriminate Hws. }
  assert (Hrun : wizardState (VRef 1) bare_pageState = (Return VUndefined, bare_pageState))
    by (vm_compute; reflexivity).
  split_and!; [done | done |].
  intros H. destruct (H _ _ Hno) as [e He]. rewrite Hrun in He. discriminate He.
Qed.

(** C6 (amended): when [state.pageState.wizardState] exists,
    [wizardState] returns it unchanged and nothing fails.  A failure of
    either property read is returned as it is; that is what happens when
    [state] or [state.pageState] is [undefined] or [null].  When
    [state.pageState] is neither and has no [wizardState],
    [wizardState] returns [undefined] and nothing fails. *)
Theorem wizardState_field_or_host_failure h state :
  (∀ ps ws, own h state "pageState" = Some ps → own h ps "wizardState" = Some ws →
            wizardState state h = (Return ws, h)) ∧
  (∀ e, read h state "pageState" = Throw e → wizardState state h = (Throw e, h)) ∧
  (∀ ps e, read h state "pageState" = Return ps → read h ps "wizardState" = Throw e →
           wizardState state h = (Throw e, h)) ∧
  (nullish state →
   wizardState state h = (Throw (CannotReadProperty state "pageState"), h)) ∧
  (∀ ps, read h state "pageState" = Return ps → nullish ps →
         wizardState state h = (Throw (CannotReadProperty ps "wizardState"), h)) ∧
  (∀ ps, read h state "pageState" = Return ps →
         ¬ nullish ps → allocated h ps → own h ps "wizardState" = None →
         wizardState state h = (Return VUndefined, h)).
Proof.
  split_and!.
  - apply wizardState_own.
  - intros e He. rewrite wizardState_path. simpl. by rewrite He.
  - intros ps e Hps He. rewrite wizardState_path. simpl. by rewrite Hps, He.
  - intros Hn. rewrite wizardState_path. simpl. by rewrite (read_nullish _ _ _ Hn).
  - intros ps Hps Hn. rewrite wizardState_path. simpl.
    by rewrite Hps, (read_nullish _ _ _ Hn).
  - intros ps Hps Hn Ha Hno. rewrite wizardState_path. simpl.
    by rewrite Hps, (read_absent _ _ _ Hn Ha Hno).
Qed.

(** ** The pass-through accessors *)

(** C4: on a state tree in which [state.pageState.wizardState] and its
    [selectedItems.nodes] exist, [selectedNodes] returns the very value
    stored at [wizardState(state).selectedItems.nodes] (for an array,
    the same reference) and the heap is as before: nothing is copied or
    allocated. *)
Theorem selectedNodes_pass_through h state ps ws si nodes :
  own h state "pageState" = Some ps →
  own h ps "wizardState" = Some ws →
  own h ws "selectedItems" = Some si →
  own h si "nodes" = Some nodes →
  wizardState state h = (Return ws, h) ∧
  read_path h ws ["selectedItems"; "nodes"] = Return nodes ∧
  selectedNodes state h = (Return nodes, h).
Proof.
  intros H1 H2 H3 H4. split_and!.
  - by apply wizardState_own with ps.
  - simpl. by rewrite (own_read _ _ _ _ H3), (own_read _ _ _ _ H4).
  - rewrite selectedNodes_path. simpl.
    by rewrite (own_read _ _ _ _ H1), (own_read _ _ _ _ H2),
      (own_read _ _ _ _ H3), (own_read _ _ _ _ H4).
Qed.

Lemma selectedNodes_pass_through_scenario :
  wizardState (VRef 1) scenario = (Return (VRef 3), scenario) ∧
  read_path scenario (VRef 3) ["selectedItems"; "nodes"] = Return (VRef 12) ∧
  selectedNodes (VRef 1) scenario = (Return (VRef 12), scenario).
Proof.
  apply (selectedNodes_pass_through scenario (VRef 1) (VRef 2) (VRef 3) (VRef 11) (VRef 12));
    vm_compute; reflexivity.
Defined.

(** C8: on a state tree in which [state.pageState.wizardState] exists,
    [availableChannels] returns what reading [availableChannels] off
    [wizardState(state)] returns, and [installedChannelList] what
    reading [channelList] off it returns; the heap is as before. *)
Theorem channel_lists_pass_through h state ps ws :
  own h state "pageState" = Some ps →
  own h ps "wizardState" = Some ws →
  wizardState state h = (Return ws, h) ∧
  availableChannels state h = (read h ws "availableChannels", h) ∧
  installedChannelList state h = (read h ws "channelList", h) ∧
  (∀ cs, own h ws "availableChannels" = Some cs →
         availableChannels state h = (Return cs, h)) ∧
  (∀ cs, own h ws "channelList" = Some cs →
         installedChannelList state h = (Return cs, h)).
Proof.
  intros H1 H2.
  assert (Ha : availableChannels state h = (read h ws "availableChannels", h)).
  { rewrite availableChannels_path. simpl.
    rewrite (own_read _ _ _ _ H1), (own_read _ _ _ _ H2). case_reads. }
  assert (Hi : installedChannelList state h = (read h ws "channelList", h)).
  { rewrite installedChannelList_path. simpl.
    rewrite (own_read _ _ _ _ H1), (own_read _ _ _ _ H2). case_reads. }
  split_and!; [by apply wizardState_own with ps | done | done | |].
  - intros cs Hcs. by rewrite Ha, (own_read _ _ _ _ Hcs).
  - intros cs Hcs. by rewrite Hi, (own_read _ _ _ _ Hcs).
Qed.

Lemma channel_lists_pass_through_scenario :
  availableChannels (VRef 1) scenario = (Return (VRef 13), scenario) ∧
  installedChannelList (VRef 1) scenario = (Return (VRef 14), scenario).
Proof.
  pose proof (channel_lists_pass_through scenario (VRef 1) (VRef 2) (VRef 3)
                eq_refl eq_refl) as (_ & _ & _ & Ha & Hi).
  split; [apply Ha | apply Hi]; vm_compute; reflexivity.
Defined.

(** ** driveChannelList: the scan *)

Lemma id_is_run h driveId d :
  id_is driveId d h =
  (match read h d "id" with
   | Return id => Return (strict_equal id driveId)
   | Throw e => Throw e
   end, h).
Proof. unfold id_is, bind, get, ret. case_reads. Qed.

(** Over a list of objects the loop of [find] is [list_find]: it
    returns the first element whose id matches, [undefined] when there is
    none, and never throws. *)
Lemma find_loop_objects h driveId es :
  Forall (is_object h) es →
  find_loop (id_is driveId) es h =
  (Return (from_option snd VUndefined (list_find (id_matches h driveId) es)), h).
Proof.
  induction 1 as [|d es Hd Hes IH]; [done|].
  simpl. unfold bind at 1. rewrite id_is_run.
  destruct (is_object_read h d "id" Hd) as [w Hw].
  destruct (decide (id_matches h driveId d)) as [Hm|Hm];
    unfold id_matches in Hm; rewrite Hw in *.
  - by rewrite Hm.
  - apply not_true_is_false in Hm. rewrite Hm, IH.
    by destruct (list_find _ es) as [[j e]|].
Qed.

Lemma alloc_fresh_empty h : fresh_empty h (alloc (HArray []) h).
Proof.
  exists (fresh (dom h)). split; [|done].
  apply not_elem_of_dom, is_fresh.
Qed.

Lemma fresh_empty_returns_empty h r : fresh_empty h r → returns_empty r.
Proof. intros (l & _ & ->). exists l. simpl. by rewrite lookup_insert_eq. Qed.

(** The closure on a well-shaped drive list. *)
Lemma driveChannelList_run h state es driveId :
  driveList_is h state es → Forall (is_object h) es →
  driveChannelList state driveId h =
  match list_find (id_matches h driveId) es with
  | Some (_, d) => (read_path h d ["metadata"; "channels"], h)
  | None => alloc (HArray []) h
  end.
Proof.
  intros (ps & ws & dl & Hps & Hws & Hdl & Hes) Hobj.
  unfold driveChannelList, find_match. unfold bind at 1 2.
  rewrite (wizardState_own _ _ _ _ Hps Hws).
  unfold bind at 1, get at 1. rewrite (own_read _ _ _ _ Hdl).
  unfold bind at 1.
  assert (Hfind : array_find dl (id_is driveId) h =
                  find_loop (id_is driveId) es h).
  { destruct dl as [| | | | |l]; simpl in Hes; try discriminate.
    simpl. destruct (h !! l) as [[props|elems]|]; try discriminate.
    by injection Hes as ->. }
  rewrite Hfind, (find_loop_objects _ _ _ Hobj).
  destruct (list_find _ es) as [[i d]|] eqn:Hlf; simpl; [|done].
  apply list_find_Some in Hlf as (Hi & _ & _).
  rewrite Forall_forall in Hobj.
  rewrite (is_object_truthy h d) by (apply Hobj, list_elem_of_lookup; eauto).
  unfold bind, get. simpl. case_reads.
Qed.

Lemma first_match_list_find h driveId es i d :
  first_match h driveId es i d ↔ list_find (id_matches h driveId) es = Some (i, d).
Proof. unfold first_match. by rewrite list_find_Some. Qed.

Lemma no_match_list_find h driveId es :
  (∀ d, d ∈ es → ¬ id_matches h driveId d) ↔ list_find (id_matches h driveId) es = None.
Proof. by rewrite list_find_None, Forall_forall. Qed.

(** ** driveChannelList: what the closure returns *)

(** C2: when [wizardState(state).driveList] is an array of drive
    objects and [d], at index [i], is its first entry in list order
    whose id is [driveId], the closure applied to [driveId] returns what
    [d.metadata.channels] evaluates to, and the heap is as before.  The
    same holds when [d] is the only entry whose id is [driveId]. *)
Theorem driveChannelList_first_match h state es driveId i d :
  driveList_is h state es →
  Forall (is_object h) es →
  es !! i = Some d →
  id_matches h driveId d →
  ((∀ j e, es !! j = Some e → j < i → ¬ id_matches h driveId e) →
   driveChannelList state driveId h = (read_path h d ["metadata"; "channels"], h)) ∧
  ((∀ j e, es !! j = Some e → id_matches h driveId e → j = i) →
   driveChannelList state driveId h = (read_path h d ["metadata"; "channels"], h)).
Proof.
  intros Hdl Hobj Hi Hd.
  assert (Hfirst : (∀ j e, es !! j = Some e → j < i → ¬ id_matches h driveId e) →
    driveChannelList state driveId h = (read_path h d ["metadata"; "channels"], h)).
  { intros Hbefore. rewrite (driveChannelList_run _ _ _ _ Hdl Hobj).
    assert (Hlf : list_find (id_matches h driveId) es = Some (i, d))
      by (by apply first_match_list_find).
    by rewrite Hlf. }
  split; [done|].
  intros Honly. apply Hfirst. intros j e Hj Hlt Hm.
  specialize (Honly j e Hj Hm). lia.
Qed.

Lemma driveChannelList_first_match_scenario :
  driveChannelList (VRef 1) (VString "b") scenario = (Return (VRef 10), scenario).
Proof.
  refine (proj1 (driveChannelList_first_match scenario (VRef 1) [VRef 5; VRef 8]
                   (VString "b") 1 (VRef 8) _ _ _ _) _).
  - exists (VRef 2), (VRef 3), (VRef 4). by vm_compute.
  - repeat constructor.
  - reflexivity.
  - by vm_compute.
  - intros [|[|j]] e Hj Hlt; [|lia|lia].
    injection Hj as <-. vm_compute. discriminate.
Defined.

(** C3: when [wizardState(state).driveList] is an array of drive
    objects none of whose ids is [driveId], the closure applied to
    [driveId] returns a freshly allocated empty array; it throws
    nothing. *)
Theorem driveChannelList_unknown_id h state es driveId :
  driveList_is h state es →
  Forall (is_object h) es →
  (∀ d, d ∈ es → ¬ id_matches h driveId d) →
  fresh_empty h (driveChannelList state driveId h) ∧
  returns_empty (driveChannelList state driveId h).
Proof.
  intros Hdl Hobj Hnone.
  assert (Hf : fresh_empty h (driveChannelList state driveId h)).
  { rewrite (driveChannelList_run _ _ _ _ Hdl Hobj).
    apply no_match_list_find in Hnone. rewrite Hnone. apply alloc_fresh_empty. }
  split; [done | by apply fresh_empty_returns_empty with h].
Qed.

Lemma driveChannelList_unknown_id_scenario :
  fresh_empty scenario (driveChannelList (VRef 1) (VString "c") scenario) ∧
  returns_empty (driveChannelList (VRef 1) (VString "c") scenario).
Proof.
  apply (driveChannelList_unknown_id scenario (VRef 1) [VRef 5; VRef 8] (VString "c")).
  - exists (VRef 2), (VRef 3), (VRef 4). by vm_compute.
  - repeat constructor.
  - intros d Hd.
    apply elem_of_cons in Hd as [-> | Hd]; [vm_compute; discriminate|].
    apply list_elem_of_singleton in Hd as ->. vm_compute. discriminate.
Defined.

Lemma elements_of_empty h c :
  elements_of h c = Some [] ↔ ∃ l, c = VRef l ∧ h !! l = Some (HArray []).
Proof.
  split.
  - destruct c as [| | | | |l]; simpl; try discriminate.
    destruct (h !! l) as [[props|elems]|] eqn:Hl; try discriminate.
    intros [= ->]. eauto.
  - intros (l & -> & Hl). simpl. by rewrite Hl.
Qed.

(** C9: on a drive list of objects, the closure returns an empty array
    exactly when no entry's id is [driveId], or the first entry whose id
    is [driveId] has an empty array as its [metadata.channels]: the
    empty result does not tell the two apart. *)
Theorem driveChannelList_empty_iff h state es driveId :
  driveList_is h state es →
  Forall (is_object h) es →
  returns_empty (driveChannelList state driveId h) ↔
  (∀ d, d ∈ es → ¬ id_matches h driveId d) ∨
  (∃ i d c, first_match h driveId es i d ∧
            read_path h d ["metadata"; "channels"] = Return c ∧
            elements_of h c = Some []).
Proof.
  intros Hdl Hobj. rewrite (driveChannelList_run _ _ _ _ Hdl Hobj).
  destruct (list_find (id_matches h driveId) es) as [[i d]|] eqn:Hlf.
  - split.
    + intros (l & Hr & Hl). simpl in Hr, Hl. right. exists i, d, (VRef l).
      split_and!; [by apply first_match_list_find | done |].
      apply elements_of_empty. eauto.
    + intros [Hnone | (i' & d' & c & Hfm & Hc & Hempty)].
      * apply no_match_list_find in Hnone. congruence.
      * apply first_match_list_find in Hfm.
        assert (d' = d) as -> by congruence.
        apply elements_of_empty in Hempty as (l & -> & Hl).
        exists l. by split.
  - split.
    + intros _. left. by apply no_match_list_find.
    + intros _. apply fresh_empty_returns_empty with h, alloc_fresh_empty.
Qed.

Lemma driveChannelList_empty_iff_scenario :
  returns_empty (driveChannelList (VRef 1) (VString "c") scenario) ↔
  (∀ d, d ∈ [VRef 5; VRef 8] → ¬ id_matches scenario (VString "c") d) ∨
  (∃ i d c, first_match scenario (VString "c") [VRef 5; VRef 8] i d ∧
            read_path scenario d ["metadata"; "channels"] = Return c ∧
            elements_of scenario c = Some []).
Proof.
  apply (driveChannelList_empty_iff scenario (VRef 1) [VRef 5; VRef 8] (VString "c")).
  - exists (VRef 2), (VRef 3), (VRef 4). by vm_compute.
  - repeat constructor.
Defined.

(** ** No mutation, stability under allocation *)

Lemma find_loop_heap driveId es h : (find_loop (id_is driveId) es h).2 = h.
Proof.
  induction es as [|d es IH]; [done|].
  simpl. unfold bind. rewrite id_is_run.
  destruct (read h d "id") as [w|]; [|done].
  by destruct (strict_equal w driveId).
Qed.

Lemma array_find_heap driveId arr h : (array_find arr (id_is driveId) h).2 = h.
Proof.
  destruct arr as [| | | | |l]; try done.
  simpl. destruct (h !! l) as [[props|elems]|]; try done.
  apply find_loop_heap.
Qed.

Lemma find_match_heap state driveId h : (find_match state driveId h).2 = h.
Proof.
  unfold find_match, bind. rewrite wizardState_path.
  destruct (read_path h state _) as [ws|]; [|done].
  unfold get. destruct (read h ws "driveList") as [dl|]; [|done].
  apply array_find_heap.
Qed.

(** The body of the closure, statement by statement. *)
Lemma driveChannelList_unfold state driveId h :
  driveChannelList state driveId h =
  match (find_match state driveId h).1 with
  | Return found =>
      if to_boolean found then (read_path h found ["metadata"; "channels"], h)
      else alloc (HArray []) h
  | Throw e => (Throw e, h)
  end.
Proof.
  unfold driveChannelList, bind at 1.
  pose proof (find_match_heap state driveId h) as Hh.
  destruct (find_match state driveId h) as [[found|e] h']; simpl in *; subst h';
    [|done].
  destruct (to_boolean found); [|done].
  unfold bind, get. case_reads.
Qed.

(** The closure either leaves the heap as it is, or returns a freshly
    allocated empty array after [find] came back with a falsy value. *)
Lemma driveChannelList_heap state driveId h :
  (driveChannelList state driveId h).2 = h ∨
  (fresh_empty h (driveChannelList state driveId h) ∧
   ∃ found, (find_match state driveId h).1 = Return found ∧ to_boolean found = false).
Proof.
  rewrite driveChannelList_unfold.
  destruct (find_match state driveId h).1 as [found|e]; [|by left].
  destruct (to_boolean found) eqn:Hb; [by left|].
  right. split; [apply alloc_fresh_empty | eauto].
Qed.

Lemma fresh_empty_extends h r : fresh_empty h r → h ⊆ r.2.
Proof. intros (l & Hl & ->). simpl. by apply insert_subseteq. Qed.

Lemma read_extends h h' v k w :
  h ⊆ h' → read h v k = Return w → read h' v k = Return w.
Proof.
  intros Hsub. destruct v as [| | | | |l]; simpl; try done.
  destruct (h !! l) as [o|] eqn:Hl; [|done].
  by rewrite (lookup_weaken _ _ _ _ Hl Hsub).
Qed.

Lemma find_loop_extends h h' driveId es v :
  h ⊆ h' →
  (find_loop (id_is driveId) es h).1 = Return v →
  (find_loop (id_is driveId) es h').1 = Return v.
Proof.
  intros Hsub. induction es as [|d es IH]; [done|].
  simpl. unfold bind. rewrite !id_is_run.
  destruct (read h d "id") as [w|] eqn:Hw; [|done].
  rewrite (read_extends _ _ _ _ _ Hsub Hw).
  by destruct (strict_equal w driveId).
Qed.

Lemma find_match_extends h h' state driveId v :
  h ⊆ h' →
  (find_match state driveId h).1 = Return v →
  (find_match state driveId h').1 = Return v.
Proof.
  intros Hsub. unfold find_match, wizardState, bind, get.
  destruct (read h state "pageState") as [ps|] eqn:Hps; [|done].
  rewrite (read_extends _ _ _ _ _ Hsub Hps).
  destruct (read h ps "wizardState") as [ws|] eqn:Hws; [|done].
  rewrite (read_extends _ _ _ _ _ Hsub Hws).
  destruct (read h ws "driveList") as [dl|] eqn:Hdl; [|done].
  rewrite (read_extends _ _ _ _ _ Hsub Hdl).
  destruct dl as [| | | | |l]; try done.
  simpl. destruct (h !! l) as [o|] eqn:Hl; [|done].
  rewrite (lookup_weaken _ _ _ _ Hl Hsub).
  destruct o as [props|elems]; [done|]. by apply find_loop_extends.
Qed.

(** C7: no accessor changes a cell of the heap it is given: the four
    direct accessors return the heap as it was, and the closure of
    [driveChannelList] at most adds one fresh cell, the empty array it
    returns.  Invoked again on the heap the first invocation left, each
    accessor returns the same result (for the closure: the same outcome,
    or again a freshly allocated empty array). *)
Theorem accessors_pure_and_repeatable h state driveId :
  ((wizardState state h).2 = h ∧
   wizardState state (wizardState state h).2 = wizardState state h) ∧
  ((selectedNodes state h).2 = h ∧
   selectedNodes state (selectedNodes state h).2 = selectedNodes state h) ∧
  ((availableChannels state h).2 = h ∧
   availableChannels state (availableChannels state h).2 = availableChannels state h) ∧
  ((installedChannelList state h).2 = h ∧
   installedChannelList state (installedChannelList state h).2 =
   installedChannelList state h) ∧
  (h ⊆ (driveChannelList state driveId h).2 ∧
   same_result h (driveChannelList state driveId h)
     (driveChannelList state driveId h).2
     (driveChannelList state driveId (driveChannelList state driveId h).2)).
Proof.
  assert (Hrepeat : ∀ f : JS value, (f h).2 = h → (f h).2 = h ∧ f (f h).2 = f h)
    by (intros f Hf; by rewrite Hf).
  split; [apply (Hrepeat (wizardState state)); by rewrite wizardState_path|].
  split; [apply (Hrepeat (selectedNodes state)); by rewrite selectedNodes_path|].
  split; [apply (Hrepeat (availableChannels state)); by rewrite availableChannels_path|].
  split;
    [apply (Hrepeat (installedChannelList state)); by rewrite installedChannelList_path|].
  split.
  - destruct (driveChannelList_heap state driveId h)
      as [Hsame | (Hfresh & found & Hfound & Hfalsy)].
    + by rewrite Hsame.
    + apply fresh_empty_extends, Hfresh.
  - destruct (driveChannelList_heap state driveId h)
      as [Hsame | (Hfresh & found & Hfound & Hfalsy)].
    + rewrite Hsame. by left.
    + right. split; [done|].
      set (h' := (driveChannelList state driveId h).2).
      rewrite (driveChannelList_unfold state driveId h').
      rewrite (find_match_extends h h' state driveId found
                 (fresh_empty_extends _ _ Hfresh) Hfound), Hfalsy.
      apply alloc_fresh_empty.
Qed.

Example driveChannelList_twice :
  let r1 := driveChannelList (VRef 1) (VString "c") scenario in
  let r2 := driveChannelList (VRef 1) (VString "c") r1.2 in
  r1.1 = Return (VRef 15) ∧ r2.1 = Return (VRef 16) ∧
  r2.2 !! 15%positive = Some (HArray []) ∧ r2.2 !! 16%positive = Some (HArray []).
Proof. vm_compute. done. Qed.

(** ** Only the wizardState subtree is read *)

Lemma reach_not_ref h v l : reach h v l → ∃ l0, v = VRef l0.
Proof. destruct 1; eauto. Qed.

Lemma read_agree h1 h2 v k : agree_under h1 h2 v → read h1 v k = read h2 v k.
Proof.
  intros Ha. destruct v as [| | | | |l]; simpl; try done.
  by rewrite <- (Ha l (reach_root _ _)).
Qed.

Lemma agree_under_read h1 h2 v k w :
  agree_under h1 h2 v → read h1 v k = Return w → agree_under h1 h2 w.
Proof.
  intros Ha Hr l Hl. apply Ha.
  destruct (reach_not_ref _ _ _ Hl) as [lw ->].
  destruct v as [| | | | |lv]; simpl in Hr; try discriminate.
  destruct (h1 !! lv) as [[props|elems]|] eqn:Hlv; try discriminate.
  destruct (props !! k) as [x|] eqn:Hk; simpl in Hr; [|discriminate].
  injection Hr as ->.
  eapply reach_child; [exact Hlv | by exists k | done].
Qed.

Lemma agree_under_element h1 h2 l es d :
  agree_under h1 h2 (VRef l) → h1 !! l = Some (HArray es) → d ∈ es →
  agree_under h1 h2 d.
Proof.
  intros Ha Hl Hd l' Hl'. apply Ha.
  eapply reach_child; [exact Hl | exact Hd | done].
Qed.

Lemma read_path_agree h1 h2 v ks :
  agree_under h1 h2 v → read_path h1 v ks = read_path h2 v ks.
Proof.
  revert v. induction ks as [|k ks IH]; intros v Ha; [done|].
  simpl. rewrite <- (read_agree _ _ _ k Ha).
  destruct (read h1 v k) as [w|] eqn:Hw; [|done].
  apply IH. by apply agree_under_read with v k.
Qed.

Lemma find_loop_agree h1 h2 driveId es :
  (∀ d, d ∈ es → agree_under h1 h2 d) →
  (find_loop (id_is driveId) es h1).1 = (find_loop (id_is driveId) es h2).1.
Proof.
  induction es as [|d es IH]; intros Ha; [done|].
  simpl. unfold bind. rewrite !id_is_run.
  rewrite <- (read_agree h1 h2 d "id") by (apply Ha; left).
  destruct (read h1 d "id") as [w|]; [|done].
  destruct (strict_equal w driveId); [done|].
  apply IH. intros e He. apply Ha. by right.
Qed.

Lemma find_loop_result h driveId es v :
  (find_loop (id_is driveId) es h).1 = Return v → v = VUndefined ∨ v ∈ es.
Proof.
  induction es as [|d es IH]; simpl; [intros [= <-]; by left|].
  unfold bind. rewrite id_is_run.
  destruct (read h d "id") as [w|]; [|done].
  destruct (strict_equal w driveId).
  - intros [= <-]. right. left.
  - intros Hv. destruct (IH Hv) as [-> | Hin]; [by left | right; by right].
Qed.

Lemma array_find_agree h1 h2 driveId arr :
  agree_under h1 h2 arr →
  (array_find arr (id_is driveId) h1).1 = (array_find arr (id_is driveId) h2).1.
Proof.
  intros Ha. destruct arr as [| | | | |l]; try done.
  simpl. rewrite <- (Ha l (reach_root _ _)).
  destruct (h1 !! l) as [[props|elems]|] eqn:Hl; try done.
  apply find_loop_agree. intros d Hd. by apply agree_under_element with l elems.
Qed.

Lemma array_find_result h1 h2 driveId arr v :
  agree_under h1 h2 arr →
  (array_find arr (id_is driveId) h1).1 = Return v →
  to_boolean v = true → agree_under h1 h2 v.
Proof.
  intros Ha. destruct arr as [| | | | |l]; try done.
  simpl. destruct (h1 !! l) as [[props|elems]|] eqn:Hl; try done.
  intros Hv Hb. destruct (find_loop_result _ _ _ _ Hv) as [-> | Hin]; [done|].
  by apply agree_under_element with l elems.
Qed.

Lemma reach_within h R v l :
  subtree_closed h R → refs_within R v → reach h v l → l ∈ R.
Proof.
  intros Hclosed Hv Hreach. induction Hreach as [l | l o v l' Hl Hch _ IH]; [done|].
  apply IH. specialize (Hclosed l Hv). unfold cell_within in Hclosed.
  rewrite Hl in Hclosed. destruct o as [props|elems]; simpl in Hch.
  - destruct Hch as [k Hk]. exact (Hclosed k v Hk).
  - rewrite Forall_forall in Hclosed. by apply Hclosed.
Qed.

Lemma agree_under_within h1 h2 R v :
  subtree_closed h1 R → refs_within R v →
  set_Forall (fun l => h1 !! l = h2 !! l) R →
  agree_under h1 h2 v.
Proof.
  intros Hclosed Hv Hsame l Hl. apply Hsame. by apply reach_within with h1 v.
Qed.

Lemma find_match_path h state driveId :
  (find_match state driveId h).1 =
  match read_path h state ["pageState"; "wizardState"] with
  | Return ws =>
      match read h ws "driveList" with
      | Return dl => (array_find dl (id_is driveId) h).1
      | Throw e => Throw e
      end
  | Throw e => Throw e
  end.
Proof.
  unfold find_match, bind. rewrite wizardState_path.
  destruct (read_path h state _) as [ws|]; [|done].
  unfold get. by destruct (read h ws "driveList").
Qed.

Lemma find_match_agree h1 h2 s1 s2 driveId ws :
  read_path h1 s1 ["pageState"; "wizardState"] = Return ws →
  read_path h2 s2 ["pageState"; "wizardState"] = Return ws →
  agree_under h1 h2 ws →
  (find_match s1 driveId h1).1 = (find_match s2 driveId h2).1 ∧
  ∀ found, (find_match s1 driveId h1).1 = Return found →
           to_boolean found = true → agree_under h1 h2 found.
Proof.
  intros H1 H2 Ha. rewrite !find_match_path, H1, H2.
  rewrite <- (read_agree h1 h2 ws "driveList" Ha).
  destruct (read h1 ws "driveList") as [dl|] eqn:Hdl; [|done].
  assert (Hadl : agree_under h1 h2 dl) by (by apply agree_under_read with ws "driveList").
  split; [by apply array_find_agree|].
  intros found. by apply array_find_result.
Qed.

(** C10: take two states, each in its heap, whose
    [state.pageState.wizardState] evaluates alike (the same value, or
    the same failure) and whose heaps hold the same subtree under that
    value.  Then [wizardState], [selectedNodes], [availableChannels] and
    [installedChannelList] have the same outcome on both, and so has the
    closure of [driveChannelList] at every [driveId], up to the identity
    of a freshly allocated empty array. *)
Theorem accessors_read_only_wizardState h1 h2 s1 s2 driveId :
  read_path h1 s1 ["pageState"; "wizardState"] =
  read_path h2 s2 ["pageState"; "wizardState"] →
  (∀ ws, read_path h1 s1 ["pageState"; "wizardState"] = Return ws →
         agree_under h1 h2 ws) →
  (wizardState s1 h1).1 = (wizardState s2 h2).1 ∧
  (selectedNodes s1 h1).1 = (selectedNodes s2 h2).1 ∧
  (availableChannels s1 h1).1 = (availableChannels s2 h2).1 ∧
  (installedChannelList s1 h1).1 = (installedChannelList s2 h2).1 ∧
  same_result h1 (driveChannelList s1 driveId h1) h2 (driveChannelList s2 driveId h2).
Proof.
  intros Heq Hagree.
  assert (Hrest : ∀ ks,
    read_path h1 s1 (["pageState"; "wizardState"] ++ ks) =
    read_path h2 s2 (["pageState"; "wizardState"] ++ ks)).
  { intros ks. rewrite !read_path_app, <- Heq.
    destruct (read_path h1 s1 _) as [ws|] eqn:Hws; [|done].
    by apply read_path_agree, Hagree. }
  split; [by rewrite !wizardState_path|].
  split; [rewrite !selectedNodes_path; apply (Hrest ["selectedItems"; "nodes"])|].
  split; [rewrite !availableChannels_path; apply (Hrest ["availableChannels"])|].
  split; [rewrite !installedChannelList_path; apply (Hrest ["channelList"])|].
  rewrite (driveChannelList_unfold s1), (driveChannelList_unfold s2).
  destruct (read_path h1 s1 ["pageState"; "wizardState"]) as [ws|e] eqn:Hws.
  - destruct (find_match_agree h1 h2 s1 s2 driveId ws Hws (eq_sym Heq) (Hagree ws eq_refl))
      as [Hsame Hfound].
    rewrite <- Hsame.
    destruct (find_match s1 driveId h1).1 as [found|]; [|by left].
    destruct (to_boolean found) eqn:Hb.
    + left. cbn [fst]. by apply read_path_agree, Hfound.
    + right. split; apply alloc_fresh_empty.
  - rewrite !find_match_path, <- Heq, Hws. by left.
Qed.

Lemma accessors_read_only_wizardState_scenario :
  (wizardState (VRef 1) scenario).1 = (wizardState (VRef 1) scenario_other_root).1 ∧
  (selectedNodes (VRef 1) scenario).1 = (selectedNodes (VRef 1) scenario_other_root).1 ∧
  (availableChannels (VRef 1) scenario).1 =
  (availableChannels (VRef 1) scenario_other_root).1 ∧
  (installedChannelList (VRef 1) scenario).1 =
  (installedChannelList (VRef 1) scenario_other_root).1 ∧
  same_result scenario (driveChannelList (VRef 1) (VString "b") scenario)
    scenario_other_root (driveChannelList (VRef 1) (VString "b") scenario_other_root).
Proof.
  apply (accessors_read_only_wizardState scenario scenario_other_root
           (VRef 1) (VRef 1) (VString "b")).
  - vm_compute. reflexivity.
  - intros ws Hws. vm_compute in Hws. injection Hws as <-.
    apply (agree_under_within _ _ scenario_subtree).
    + apply (bool_decide_unpack _). vm_compute. exact I.
    + apply (bool_decide_unpack _). vm_compute. exact I.
    + assert (Hne : set_Forall (fun l => l ≠ 1 ∧ l ≠ 2)%positive scenario_subtree)
        by (apply (bool_decide_unpack _); vm_compute; exact I).
      intros l Hl. destruct (Hne l Hl) as [Hne1 Hne2].
      unfold scenario_other_root. by rewrite !lookup_insert_ne.
Defined.

Example other_root_differs : scenario !! 1%positive ≠ scenario_other_root !! 1%positive.
Proof. vm_compute. discriminate. Qed.

(** ** Further runs of the closure *)

Example first_of_two_matches_wins :
  driveChannelList (VRef 1) (VString "a") duplicate_ids = (Return (VRef 7), duplicate_ids) ∧
  read_path duplicate_ids (VRef 8) ["metadata"; "channels"] = Return (VRef 10).
Proof. vm_compute. done. Qed.

Example found_with_no_channels :
  driveChannelList (VRef 1) (VString "b") empty_drive = (Return (VRef 10), empty_drive) ∧
  elements_of empty_drive (VRef 10) = Some [].
Proof. vm_compute. done. Qed.

(** ** Outside the data model

    The drive list is specified as a sequence of drive objects.  The
    hypothesis [Forall (is_object h) es] of the statements above is
    that shape; the closure does not check it. *)

Example null_entry_throws :
  driveChannelList (VRef 1) (VString "a") null_before_match =
  (Throw (CannotReadProperty VNull "id"), null_before_match).
Proof. vm_compute. reflexivity. Qed.

Example missing_driveList_throws :
  driveChannelList (VRef 1) (VString "a") driveList_missing =
  (Throw (CannotReadProperty VUndefined "find"), driveList_missing).
Proof. vm_compute. reflexivity. Qed.

(** * Further properties of the getters *)

(** ** Failures and missing fields *)

Lemma is_object_present h v : is_object h v → ¬ nullish v ∧ allocated h v.
Proof.
  unfold nullish. destruct v as [| | | | |l]; simpl; try done.
  destruct (h !! l) as [[props|elems]|]; try done.
  intros _. split; [intros [H|H]; discriminate H | eauto].
Qed.

Lemma read_path_wizardState_app h state ks :
  read_path h state (["pageState"; "wizardState"] ++ ks) =
  match (wizardState state h).1 with
  | Return ws => read_path h ws ks
  | Throw e => Throw e
  end.
Proof. by rewrite read_path_app, wizardState_path. Qed.

(** X1: a failure of [wizardState(state)] is the failure of every other
    accessor: [selectedNodes], [availableChannels],
    [installedChannelList] and the closure of [driveChannelList] throw
    the same error, and the heap is as before. *)
Theorem wizardState_failure_propagates h state driveId e :
  (wizardState state h).1 = Throw e →
  selectedNodes state h = (Throw e, h) ∧
  availableChannels state h = (Throw e, h) ∧
  installedChannelList state h = (Throw e, h) ∧
  driveChannelList state driveId h = (Throw e, h).
Proof.
  intros He.
  assert (Hpath : ∀ ks,
    read_path h state (["pageState"; "wizardState"] ++ ks) = Throw e)
    by (intros ks; by rewrite read_path_wizardState_app, He).
  split_and!.
  - rewrite selectedNodes_path. f_equal. exact (Hpath ["selectedItems"; "nodes"]).
  - rewrite availableChannels_path. f_equal. exact (Hpath ["availableChannels"]).
  - rewrite installedChannelList_path. f_equal. exact (Hpath ["channelList"]).
  - rewrite driveChannelList_unfold, find_match_path.
    rewrite wizardState_path in He. cbn [fst] in He. by rewrite He.
Qed.

Lemma wizardState_failure_propagates_null :
  selectedNodes VNull scenario = (Throw (CannotReadProperty VNull "pageState"), scenario) ∧
  availableChannels VNull scenario =
  (Throw (CannotReadProperty VNull "pageState"), scenario) ∧
  installedChannelList VNull scenario =
  (Throw (CannotReadProperty VNull "pageState"), scenario) ∧
  driveChannelList VNull (VString "a") scenario =
  (Throw (CannotReadProperty VNull "pageState"), scenario).
Proof.
  apply (wizardState_failure_propagates scenario VNull (VString "a")). reflexivity.
Defined.

(** X2: when [wizardState(state)] returns [undefined] or [null] (as it
    does for an absent [wizardState] field), each of the other accessors
    throws on its next property read, naming that property. *)
Theorem nullish_wizardState_fails_downstream h state ws driveId :
  (wizardState state h).1 = Return ws →
  nullish ws →
  selectedNodes state h = (Throw (CannotReadProperty ws "selectedItems"), h) ∧
  availableChannels state h = (Throw (CannotReadProperty ws "availableChannels"), h) ∧
  installedChannelList state h = (Throw (CannotReadProperty ws "channelList"), h) ∧
  driveChannelList state driveId h = (Throw (CannotReadProperty ws "driveList"), h).
Proof.
  intros Hws Hn.
  assert (Hpath : ∀ k ks,
    read_path h state (["pageState"; "wizardState"] ++ k :: ks) =
    Throw (CannotReadProperty ws k)).
  { intros k ks. rewrite read_path_wizardState_app, Hws. simpl.
    by rewrite (read_nullish _ _ _ Hn). }
  split_and!.
  - rewrite selectedNodes_path. f_equal. exact (Hpath "selectedItems" ["nodes"]).
  - rewrite availableChannels_path. f_equal. exact (Hpath "availableChannels" []).
  - rewrite installedChannelList_path. f_equal. exact (Hpath "channelList" []).
  - rewrite driveChannelList_unfold, find_match_path.
    rewrite wizardState_path in Hws. cbn [fst] in Hws.
    by rewrite Hws, (read_nullish _ _ _ Hn).
Qed.

Lemma nullish_wizardState_fails_downstream_bare :
  selectedNodes (VRef 1) bare_pageState =
  (Throw (CannotReadProperty VUndefined "selectedItems"), bare_pageState) ∧
  availableChannels (VRef 1) bare_pageState =
  (Throw (CannotReadProperty VUndefined "availableChannels"), bare_pageState) ∧
  installedChannelList (VRef 1) bare_pageState =
  (Throw (CannotReadProperty VUndefined "channelList"), bare_pageState) ∧
  driveChannelList (VRef 1) (VString "a") bare_pageState =
  (Throw (CannotReadProperty VUndefined "driveList"), bare_pageState).
Proof.
  apply (nullish_wizardState_fails_downstream bare_pageState (VRef 1) VUndefined
           (VString "a")).
  - vm_compute. reflexivity.
  - by left.
Defined.

(** X3: on a wizardState object, an absent last field is read as
    [undefined] without a failure ([availableChannels], [channelList],
    and [nodes] of an existing [selectedItems]), while an absent
    [selectedItems] makes [selectedNodes] throw on reading [nodes]. *)
Theorem missing_leaf_reads_undefined h state ps ws :
  own h state "pageState" = Some ps →
  own h ps "wizardState" = Some ws →
  is_object h ws →
  (own h ws "availableChannels" = None →
   availableChannels state h = (Return VUndefined, h)) ∧
  (own h ws "channelList" = None →
   installedChannelList state h = (Return VUndefined, h)) ∧
  (own h ws "selectedItems" = None →
   selectedNodes state h = (Throw (CannotReadProperty VUndefined "nodes"), h)) ∧
  (∀ si, own h ws "selectedItems" = Some si → is_object h si →
         own h si "nodes" = None →
         selectedNodes state h = (Return VUndefined, h)).
Proof.
  intros Hps Hws Hobj.
  destruct (is_object_present _ _ Hobj) as [Hnn Hal].
  pose proof (wizardState_own _ _ _ _ Hps Hws) as Hrun.
  assert (Hpath : ∀ ks,
    read_path h state (["pageState"; "wizardState"] ++ ks) = read_path h ws ks)
    by (intros ks; by rewrite read_path_wizardState_app, Hrun).
  split_and!.
  - intros Hno. rewrite availableChannels_path. f_equal.
    etrans; [exact (Hpath ["availableChannels"])|].
    simpl. by rewrite (read_absent _ _ _ Hnn Hal Hno).
  - intros Hno. rewrite installedChannelList_path. f_equal.
    etrans; [exact (Hpath ["channelList"])|].
    simpl. by rewrite (read_absent _ _ _ Hnn Hal Hno).
  - intros Hno. rewrite selectedNodes_path. f_equal.
    etrans; [exact (Hpath ["selectedItems"; "nodes"])|].
    simpl. by rewrite (read_absent _ _ _ Hnn Hal Hno).
  - intros si Hsi Hsiobj Hno.
    destruct (is_object_present _ _ Hsiobj) as [Hsn Hsa].
    rewrite selectedNodes_path. f_equal.
    etrans; [exact (Hpath ["selectedItems"; "nodes"])|].
    simpl. by rewrite (own_read _ _ _ _ Hsi), (read_absent _ _ _ Hsn Hsa Hno).
Qed.

Lemma missing_leaf_reads_undefined_empty_wizardState :
  availableChannels (VRef 1) driveList_missing = (Return VUndefined, driveList_missing) ∧
  installedChannelList (VRef 1) driveList_missing =
  (Return VUndefined, driveList_missing) ∧
  selectedNodes (VRef 1) driveList_missing =
  (Throw (CannotReadProperty VUndefined "nodes"), driveList_missing).
Proof.
  destruct (missing_leaf_reads_undefined driveList_missing (VRef 1) (VRef 2) (VRef 3))
    as (Ha & Hi & Hs & _); [by vm_compute | by vm_compute | by vm_compute |].
  split_and!; [apply Ha | apply Hi | apply Hs]; by vm_compute.
Defined.



(** ** The scan, entry by entry *)

Lemma own_is_object h v k w : own h v k = Some w → is_object h v.
Proof.
  destruct v as [| | | | |l]; simpl; try discriminate.
  by destruct (h !! l) as [[props|elems]|].
Qed.

Lemma find_match_driveList h state es driveId :
  driveList_is h state es →
  (find_match state driveId h).1 = (find_loop (id_is driveId) es h).1.
Proof.
  intros (ps & ws & dl & Hps & Hws & Hdl & Hes).
  rewrite find_match_path.
  pose proof (wizardState_own _ _ _ _ Hps Hws) as Hrun.
  rewrite wizardState_path in Hrun. apply (f_equal fst) in Hrun. cbn [fst] in Hrun.
  rewrite Hrun, (own_read _ _ _ _ Hdl).
  destruct dl as [| | | | |l]; simpl in Hes; try discriminate.
  simpl. destruct (h !! l) as [[props|elems]|]; try discriminate.
  by injection Hes as ->.
Qed.

(** Objects whose id is not [driveId] are passed over. *)
Lemma find_loop_skip h driveId pre rest :
  Forall (is_object h) pre →
  Forall (fun e => ¬ id_matches h driveId e) pre →
  find_loop (id_is driveId) (pre ++ rest) h = find_loop (id_is driveId) rest h.
Proof.
  induction 1 as [|e pre He Hpre IH]; [done|].
  intros Hno. apply Forall_cons in Hno as [Hne Hno].
  simpl. unfold bind at 1. rewrite id_is_run.
  destruct (is_object_read h e "id" He) as [w Hw].
  unfold id_matches in Hne. rewrite Hw in *.
  apply not_true_is_false in Hne. rewrite Hne. by apply IH.
Qed.

(** X5: the scan stops at the first entry whose id is [driveId].  When
    the entries before it are objects with other ids, the closure
    returns what that entry's [metadata.channels] evaluates to, whatever
    follows it in the list: later entries, well-formed or not, are not
    read. *)
Theorem scan_stops_at_first_match h state pre d post driveId :
  driveList_is h state (pre ++ d :: post) →
  Forall (is_object h) pre →
  Forall (fun e => ¬ id_matches h driveId e) pre →
  is_object h d →
  id_matches h driveId d →
  driveChannelList state driveId h = (read_path h d ["metadata"; "channels"], h).
Proof.
  intros Hdl Hpre Hno Hd Hm.
  rewrite driveChannelList_unfold, (find_match_driveList _ _ _ _ Hdl).
  rewrite (find_loop_skip _ _ _ _ Hpre Hno).
  simpl. unfold bind at 1. rewrite id_is_run.
  destruct (is_object_read h d "id" Hd) as [w Hw].
  unfold id_matches in Hm. rewrite Hw in *. rewrite Hm. simpl.
  by rewrite (is_object_truthy _ _ Hd).
Qed.

Lemma scan_stops_at_first_match_null_after :
  driveChannelList (VRef 1) (VString "a") null_after_match =
  (Return (VRef 7), null_after_match).
Proof.
  apply (scan_stops_at_first_match null_after_match (VRef 1) [] (VRef 5) [VNull]
           (VString "a")).
  - exists (VRef 2), (VRef 3), (VRef 4). by vm_compute.
  - constructor.
  - constructor.
  - by vm_compute.
  - by vm_compute.
Defined.

(** X6: an [undefined] or [null] entry that the scan reaches, the
    entries before it being objects with other ids, makes the closure
    throw on reading [id] off it, even when a matching entry follows.
    The heap is as before. *)
Theorem nullish_entry_before_match_throws h state pre n post driveId :
  driveList_is h state (pre ++ n :: post) →
  Forall (is_object h) pre →
  Forall (fun e => ¬ id_matches h driveId e) pre →
  nullish n →
  driveChannelList state driveId h = (Throw (CannotReadProperty n "id"), h).
Proof.
  intros Hdl Hpre Hno Hn.
  rewrite driveChannelList_unfold, (find_match_driveList _ _ _ _ Hdl).
  rewrite (find_loop_skip _ _ _ _ Hpre Hno).
  simpl. unfold bind at 1. rewrite id_is_run.
  by rewrite (read_nullish _ _ _ Hn).
Qed.

Lemma nullish_entry_before_match_throws_scenario :
  driveChannelList (VRef 1) (VString "a") null_before_match =
  (Throw (CannotReadProperty VNull "id"), null_before_match).
Proof.
  apply (nullish_entry_before_match_throws null_before_match (VRef 1) [] VNull [VRef 5]
           (VString "a")).
  - exists (VRef 2), (VRef 3), (VRef 4). by vm_compute.
  - constructor.
  - constructor.
  - by right.
Defined.

(** X7: the empty-array default covers only "no drive found".  When the
    first drive whose id is [driveId] has no [metadata], the closure
    throws on reading [channels]; when its [metadata] is an object
    without [channels], the closure returns [undefined], not an empty
    array. *)
Theorem found_drive_without_channels h state es driveId i d :
  driveList_is h state es →
  Forall (is_object h) es →
  first_match h driveId es i d →
  (own h d "metadata" = None →
   driveChannelList state driveId h =
   (Throw (CannotReadProperty VUndefined "channels"), h)) ∧
  (∀ m, own h d "metadata" = Some m → is_object h m → own h m "channels" = None →
        driveChannelList state driveId h = (Return VUndefined, h)).
Proof.
  intros Hdl Hobj Hfm.
  assert (Hd : is_object h d).
  { rewrite Forall_forall in Hobj. apply Hobj, list_elem_of_lookup.
    exists i. apply Hfm. }
  destruct (is_object_present _ _ Hd) as [Hnn Hal].
  rewrite (driveChannelList_run _ _ _ _ Hdl Hobj).
  apply first_match_list_find in Hfm. rewrite Hfm.
  split.
  - intros Hno. simpl. by rewrite (read_absent _ _ _ Hnn Hal Hno).
  - intros m Hm Hmobj Hno.
    destruct (is_object_present _ _ Hmobj) as [Hmn Hma].
    simpl. by rewrite (own_read _ _ _ _ Hm), (read_absent _ _ _ Hmn Hma Hno).
Qed.

Lemma found_drive_without_channels_scenario :
  driveChannelList (VRef 1) (VString "a") metadata_without_channels =
  (Return VUndefined, metadata_without_channels).
Proof.
  refine (proj2 (found_drive_without_channels metadata_without_channels (VRef 1)
                   [VRef 5; VRef 8] (VString "a") 0 (VRef 5) _ _ _) (VRef 6) _ _ _).
  - exists (VRef 2), (VRef 3), (VRef 4). by vm_compute.
  - repeat constructor.
  - split_and!; [done | by vm_compute | intros j e _ Hlt; lia].
  - by vm_compute.
  - by vm_compute.
  - by vm_compute.
Defined.

(** X8: ids are compared without coercion.  When every entry of the
    drive list has a string as its [id] and [driveId] is not a string,
    no entry is found: the closure returns a freshly allocated empty
    array. *)
Theorem non_string_driveId_finds_nothing h state es driveId :
  driveList_is h state es →
  Forall (fun d => ∃ s, own h d "id" = Some (VString s)) es →
  (∀ s, driveId ≠ VString s) →
  fresh_empty h (driveChannelList state driveId h).
Proof.
  intros Hdl Hids Hns.
  assert (Hobj : Forall (is_object h) es).
  { eapply Forall_impl; [exact Hids|]. intros d [s Hs]. by eapply own_is_object. }
  rewrite (driveChannelList_run _ _ _ _ Hdl Hobj).
  assert (Hnone : list_find (id_matches h driveId) es = None).
  { apply no_match_list_find. intros d Hd Hm.
    rewrite Forall_forall in Hids. destruct (Hids d Hd) as [s Hs].
    unfold id_matches in Hm. rewrite (own_read _ _ _ _ Hs) in Hm.
    destruct driveId; simpl in Hm; try discriminate.
    apply bool_decide_eq_true in Hm. subst. by eapply Hns. }
  rewrite Hnone. apply alloc_fresh_empty.
Qed.

Lemma non_string_driveId_finds_nothing_scenario :
  fresh_empty scenario (driveChannelList (VRef 1) (VNumber PrimFloat.one) scenario).
Proof.
  apply (non_string_driveId_finds_nothing scenario (VRef 1) [VRef 5; VRef 8]).
  - exists (VRef 2), (VRef 3), (VRef 4). by vm_compute.
  - repeat constructor; [by exists "a" | by exists "b"].
  - intros s. discriminate.
Defined.

(** X9: a lookup with [undefined] finds a drive that has no [id].  When
    the entries before it have strings as ids, the closure applied to
    [undefined] returns what [metadata.channels] of the first entry
    without an [id] evaluates to. *)
Theorem undefined_driveId_finds_drive_without_id h state es i d :
  driveList_is h state es →
  Forall (is_object h) es →
  es !! i = Some d →
  own h d "id" = None →
  (∀ j e, es !! j = Some e → j < i → ∃ s, own h e "id" = Some (VString s)) →
  driveChannelList state VUndefined h = (read_path h d ["metadata"; "channels"], h).
Proof.
  intros Hdl Hobj Hi Hno Hbefore.
  assert (Hd : is_object h d).
  { rewrite Forall_forall in Hobj. apply Hobj, list_elem_of_lookup. eauto. }
  destruct (is_object_present _ _ Hd) as [Hnn Hal].
  assert (Hfm : first_match h VUndefined es i d).
  { split_and!; [done | |].
    - unfold id_matches. by rewrite (read_absent _ _ _ Hnn Hal Hno).
    - intros j e Hj Hlt. destruct (Hbefore j e Hj Hlt) as [s Hs].
      unfold id_matches. rewrite (own_read _ _ _ _ Hs). simpl. discriminate. }
  rewrite (driveChannelList_run _ _ _ _ Hdl Hobj).
  apply first_match_list_find in Hfm. by rewrite Hfm.
Qed.

Lemma undefined_driveId_finds_drive_without_id_scenario :
  driveChannelList (VRef 1) VUndefined drive_without_id =
  (Return (VRef 10), drive_without_id).
Proof.
  apply (undefined_driveId_finds_drive_without_id drive_without_id (VRef 1)
           [VRef 5; VRef 8] 1 (VRef 8)).
  - exists (VRef 2), (VRef 3), (VRef 4). by vm_compute.
  - repeat constructor.
  - reflexivity.
  - by vm_compute.
  - intros [|[|j]] e Hj Hlt; [|lia|lia]. injection Hj as <-. by exists "a".
Defined.

(** ** Allocation and aliasing *)

Lemma find_match_objects h state es driveId :
  driveList_is h state es → Forall (is_object h) es →
  (find_match state driveId h).1 =
  Return (from_option snd VUndefined (list_find (id_matches h driveId) es)).
Proof.
  intros Hdl Hobj.
  by rewrite (find_match_driveList _ _ _ _ Hdl), (find_loop_objects _ _ _ Hobj).
Qed.

(** X10: the empty array of a lookup that finds nothing is not shared.
    Two such lookups in a row return two distinct references, neither
    of them a cell of the heap the first one started from, and both
    cells hold an empty array afterwards. *)
Theorem unknown_lookups_get_distinct_arrays h state es id1 id2 :
  driveList_is h state es →
  Forall (is_object h) es →
  (∀ d, d ∈ es → ¬ id_matches h id1 d) →
  (∀ d, d ∈ es → ¬ id_matches h id2 d) →
  ∃ l1 l2,
    l1 ≠ l2 ∧ h !! l1 = None ∧ h !! l2 = None ∧
    (driveChannelList state id1 h).1 = Return (VRef l1) ∧
    (driveChannelList state id2 (driveChannelList state id1 h).2).1 = Return (VRef l2) ∧
    (driveChannelList state id2 (driveChannelList state id1 h).2).2 !! l1 =
    Some (HArray []) ∧
    (driveChannelList state id2 (driveChannelList state id1 h).2).2 !! l2 =
    Some (HArray []).
Proof.
  intros Hdl Hobj Hno1 Hno2.
  apply no_match_list_find in Hno1. apply no_match_list_find in Hno2.
  pose proof (find_match_objects _ _ _ id2 Hdl Hobj) as Hfm2.
  rewrite Hno2 in Hfm2. simpl in Hfm2.
  rewrite (driveChannelList_run _ _ _ _ Hdl Hobj), Hno1.
  unfold alloc at 1 2 3 4. cbn [fst snd].
  set (l1 := fresh (dom h)).
  assert (Hl1 : h !! l1 = None) by apply not_elem_of_dom, is_fresh.
  set (h1 := <[l1 := HArray []]> h).
  assert (Hsub : h ⊆ h1) by (by apply insert_subseteq).
  rewrite (driveChannelList_unfold state id2 h1).
  rewrite (find_match_extends h h1 state id2 VUndefined Hsub Hfm2). simpl.
  set (l2 := fresh (dom h1)).
  assert (Hl2 : h1 !! l2 = None) by apply not_elem_of_dom, is_fresh.
  assert (Hne : l1 ≠ l2).
  { intros Heq. rewrite <- Heq in Hl2. unfold h1 in Hl2.
    by rewrite lookup_insert_eq in Hl2. }
  exists l1, l2. split_and!; try done.
  - unfold h1 in Hl2. by rewrite lookup_insert_ne in Hl2.
  - rewrite lookup_insert_ne by done. unfold h1. by rewrite lookup_insert_eq.
  - by rewrite lookup_insert_eq.
Qed.

Lemma unknown_lookups_get_distinct_arrays_scenario :
  ∃ l1 l2,
    l1 ≠ l2 ∧ scenario !! l1 = None ∧ scenario !! l2 = None ∧
    (driveChannelList (VRef 1) (VString "c") scenario).1 = Return (VRef l1) ∧
    (driveChannelList (VRef 1) (VString "c")
       (driveChannelList (VRef 1) (VString "c") scenario).2).1 = Return (VRef l2) ∧
    (driveChannelList (VRef 1) (VString "c")
       (driveChannelList (VRef 1) (VString "c") scenario).2).2 !! l1 =
    Some (HArray []) ∧
    (driveChannelList (VRef 1) (VString "c")
       (driveChannelList (VRef 1) (VString "c") scenario).2).2 !! l2 =
    Some (HArray []).
Proof.
  assert (Hno : ∀ d, d ∈ [VRef 5; VRef 8] → ¬ id_matches scenario (VString "c") d).
  { intros d Hd.
    apply elem_of_cons in Hd as [-> | Hd]; [vm_compute; discriminate|].
    apply list_elem_of_singleton in Hd as ->. vm_compute. discriminate. }
  apply (unknown_lookups_get_distinct_arrays scenario (VRef 1) [VRef 5; VRef 8]
           (VString "c") (VString "c")); [| repeat constructor | done | done].
  exists (VRef 2), (VRef 3), (VRef 4). by vm_compute.
Defined.

Lemma read_reach h v k l : read h v k = Return (VRef l) → reach h v l.
Proof.
  destruct v as [| | | | |lv]; simpl; try discriminate.
  destruct (h !! lv) as [[props|elems]|] eqn:Hlv; try discriminate.
  destruct (props !! k) as [w|] eqn:Hk; simpl; [|discriminate].
  intros [= ->]. eapply reach_child; [exact Hlv | by exists k | constructor].
Qed.

Lemma reach_trans h v l l' : reach h v l → reach h (VRef l) l' → reach h v l'.
Proof.
  induction 1 as [l | l0 o v l Hl0 Hch _ IH]; [done|].
  intros Hl. eapply reach_child; [exact Hl0 | exact Hch | by apply IH].
Qed.

Lemma read_path_reach h v ks l : read_path h v ks = Return (VRef l) → reach h v l.
Proof.
  revert v. induction ks as [|k ks IH]; intros v; simpl.
  - intros [= ->]. constructor.
  - destruct (read h v k) as [w|] eqn:Hw; [|discriminate].
    intros Hl. specialize (IH _ Hl).
    destruct (reach_not_ref _ _ _ IH) as [lw ->].
    apply reach_trans with lw; [by apply read_reach with k | done].
Qed.

Lemma find_match_reach h state driveId lf :
  (find_match state driveId h).1 = Return (VRef lf) → reach h state lf.
Proof.
  rewrite find_match_path.
  destruct (read_path h state _) as [ws|] eqn:Hws; [|discriminate].
  destruct (read h ws "driveList") as [dl|] eqn:Hdl; [|discriminate].
  destruct dl as [| | | | |ld]; try discriminate.
  simpl. destruct (h !! ld) as [[props|elems]|] eqn:Hld; try discriminate.
  intros Hfound.
  destruct (find_loop_result _ _ _ _ Hfound) as [|Hin]; [discriminate|].
  pose proof (read_reach _ _ _ _ Hdl) as Hwsld.
  destruct (reach_not_ref _ _ _ Hwsld) as [lws ->].
  apply reach_trans with lws; [by apply read_path_reach with ["pageState"; "wizardState"]|].
  apply reach_trans with ld; [done|].
  eapply reach_child; [exact Hld | exact Hin | constructor].
Qed.

(** X11: the accessors hand out references into the state tree.  A
    reference returned by [wizardState], [selectedNodes],
    [availableChannels] or [installedChannelList] is a location
    reachable from [state]; one returned by the closure of
    [driveChannelList] is reachable from [state], or it is the fresh
    empty array, a location the given heap did not hold. *)
Theorem results_point_into_state h state driveId l :
  ((wizardState state h).1 = Return (VRef l) → reach h state l) ∧
  ((selectedNodes state h).1 = Return (VRef l) → reach h state l) ∧
  ((availableChannels state h).1 = Return (VRef l) → reach h state l) ∧
  ((installedChannelList state h).1 = Return (VRef l) → reach h state l) ∧
  ((driveChannelList state driveId h).1 = Return (VRef l) →
   reach h state l ∨
   (h !! l = None ∧ (driveChannelList state driveId h).2 !! l = Some (HArray []))).
Proof.
  split_and!.
  - rewrite wizardState_path. apply read_path_reach.
  - rewrite selectedNodes_path. apply read_path_reach.
  - rewrite availableChannels_path. apply read_path_reach.
  - rewrite installedChannelList_path. apply read_path_reach.
  - rewrite driveChannelList_unfold.
    destruct (find_match state driveId h).1 as [found|] eqn:Hfound; [|discriminate].
    destruct (to_boolean found).
    + cbn [fst]. intros Hl. left.
      pose proof (read_path_reach _ _ _ _ Hl) as Hreach.
      destruct (reach_not_ref _ _ _ Hreach) as [lf ->].
      apply reach_trans with lf; [by apply find_match_reach with driveId | done].
    + unfold alloc. cbn [fst snd]. intros [= <-]. right.
      split; [apply not_elem_of_dom, is_fresh | by rewrite lookup_insert_eq].
Qed.

Example selectedNodes_result_is_in_state : reach scenario (VRef 1) 12%positive.
Proof.
  apply read_path_reach with ["pageState"; "wizardState"; "selectedItems"; "nodes"].
  vm_compute. reflexivity.
Qed.

(** ** The closure reads the heap of the call *)

Lemma own_overwrite_array h l es es' v k :
  h !! l = Some (HArray es) → own (<[l := HArray es']> h) v k = own h v k.
Proof.
  intros Hl. destruct v as [| | | | |lv]; simpl; try done.
  destruct (decide (l = lv)) as [<- | Hne].
  - by rewrite lookup_insert_eq, Hl.
  - by rewrite lookup_insert_ne.
Qed.

Lemma is_object_overwrite_array h l es es' v :
  h !! l = Some (HArray es) → is_object h v → is_object (<[l := HArray es']> h) v.
Proof.
  intros Hl. destruct v as [| | | | |lv]; simpl; try done.
  destruct (decide (l = lv)) as [<- | Hne].
  - by rewrite Hl.
  - by rewrite lookup_insert_ne.
Qed.

Lemma read_object h v k :
  is_object h v → read h v k = Return (default VUndefined (own h v k)).
Proof.
  destruct v as [| | | | |l]; simpl; try done.
  by destruct (h !! l) as [[props|elems]|].
Qed.

Lemma id_matches_overwrite_array h l es es' driveId d :
  h !! l = Some (HArray es) → is_object h d →
  id_matches (<[l := HArray es']> h) driveId d ↔ id_matches h driveId d.
Proof.
  intros Hl Hd. unfold id_matches.
  rewrite (read_object _ _ _ (is_object_overwrite_array _ _ _ es' _ Hl Hd)).
  by rewrite (read_object _ _ _ Hd), (own_overwrite_array _ _ _ _ _ _ Hl).
Qed.

(** X12: the closure does not keep a snapshot of the drive list: it
    reads [wizardState(state).driveList] when it is applied.  After the
    array is overwritten in place with the objects [es'], the closure
    scans [es']: it returns a fresh empty array when no entry of [es']
    has the id, and the [metadata.channels] of the first entry of [es']
    that has it otherwise. *)
Theorem closure_reads_driveList_at_call h state ps ws l es es' driveId :
  own h state "pageState" = Some ps →
  own h ps "wizardState" = Some ws →
  own h ws "driveList" = Some (VRef l) →
  h !! l = Some (HArray es) →
  Forall (is_object h) es' →
  ((∀ d, d ∈ es' → ¬ id_matches h driveId d) →
   fresh_empty (<[l := HArray es']> h)
     (driveChannelList state driveId (<[l := HArray es']> h))) ∧
  (∀ i d, first_match h driveId es' i d →
          driveChannelList state driveId (<[l := HArray es']> h) =
          (read_path (<[l := HArray es']> h) d ["metadata"; "channels"],
           <[l := HArray es']> h)).
Proof.
  intros Hps Hws Hdl Hl Hobj.
  set (h' := <[l := HArray es']> h).
  assert (Hdl' : driveList_is h' state es').
  { exists ps, ws, (VRef l). unfold h'.
    rewrite !(own_overwrite_array _ _ _ _ _ _ Hl). split_and!; try done.
    simpl. by rewrite lookup_insert_eq. }
  assert (Hobj' : Forall (is_object h') es').
  { eapply Forall_impl; [exact Hobj|]. intros d. by apply is_object_overwrite_array with es. }
  assert (Hiff : ∀ d, d ∈ es' → id_matches h' driveId d ↔ id_matches h driveId d).
  { intros d Hd. rewrite Forall_forall in Hobj.
    by apply id_matches_overwrite_array with es, Hobj. }
  rewrite (driveChannelList_run _ _ _ _ Hdl' Hobj'). split.
  - intros Hno.
    assert (Hnone : list_find (id_matches h' driveId) es' = None).
    { apply no_match_list_find. intros d Hd Hm. by apply (Hno d Hd), Hiff. }
    rewrite Hnone. apply alloc_fresh_empty.
  - intros i d (Hi & Hm & Hbefore).
    assert (Hfm : list_find (id_matches h' driveId) es' = Some (i, d)).
    { apply first_match_list_find. split_and!; [done | |].
      - apply Hiff; [apply list_elem_of_lookup; eauto | done].
      - intros j e Hj Hlt He. apply (Hbefore j e Hj Hlt), Hiff; [|done].
        apply list_elem_of_lookup. eauto. }
    by rewrite Hfm.
Qed.

Lemma closure_reads_driveList_at_call_emptied :
  driveChannelList (VRef 1) (VString "b") scenario = (Return (VRef 10), scenario) ∧
  fresh_empty (<[4%positive := HArray []]> scenario)
    (driveChannelList (VRef 1) (VString "b") (<[4%positive := HArray []]> scenario)).
Proof.
  split; [by vm_compute|].
  refine (proj1 (closure_reads_driveList_at_call scenario (VRef 1) (VRef 2) (VRef 3)
                   4%positive [VRef 5; VRef 8] [] (VString "b") _ _ _ _ _) _).
  - by vm_compute.
  - by vm_compute.
  - by vm_compute.
  - by vm_compute.
  - constructor.
  - intros d Hd. by apply not_elem_of_nil in Hd.
Defined.

(** * Further properties of the catalogs *)

Lemma lookup_key_cons k0 v0 c k :
  lookup_key ((k0, v0) :: c) k = if bool_decide (k0 = k) then Some v0 else lookup_key c k.
Proof. unfold lookup_key. simpl. by destruct (bool_decide (k0 = k)). Qed.

Lemma lookup_key_elem_of (c : catalog) k v :
  NoDup c.*1 → (k, v) ∈ c ↔ lookup_key c k = Some v.
Proof.
  induction c as [|[k0 v0] c IH]; intros Hnd.
  - split; [by intros ?%not_elem_of_nil | discriminate].
  - simpl in Hnd. apply NoDup_cons in Hnd as [Hk0 Hnd].
    rewrite lookup_key_cons, elem_of_cons. case_bool_decide as Hk.
    + subst k0. split.
      * intros [Heq | Hin]; [by simplify_eq|].
        exfalso. apply Hk0. apply list_elem_of_fmap. by exists (k, v).
      * intros [= ->]. by left.
    + rewrite <- (IH Hnd). split; [|by right].
      intros [Heq | Hin]; [by simplify_eq | done].
Qed.

Lemma NoDup_values_key (c : catalog) k1 k2 v :
  NoDup (catalog_values c) → (k1, v) ∈ c → (k2, v) ∈ c → k1 = k2.
Proof.
  unfold catalog_values. induction c as [|[k0 v0] c IH]; intros Hnd H1 H2.
  - by apply not_elem_of_nil in H1.
  - simpl in Hnd. apply NoDup_cons in Hnd as [Hv0 Hnd].
    apply elem_of_cons in H1 as [H1 | H1];
      apply elem_of_cons in H2 as [H2 | H2]; simplify_eq.
    + done.
    + exfalso. apply Hv0. apply list_elem_of_fmap. by exists (k2, v0).
    + exfalso. apply Hv0. apply list_elem_of_fmap. by exists (k1, v0).
    + by apply IH.
Qed.

(** X13: in each of the five catalogs no key is written twice and no
    two keys carry the same value: reading [C.KEY] gives the value
    written beside [KEY], and a value identifies its key. *)
Theorem catalog_lookup_unambiguous c :
  c ∈ catalogs →
  NoDup c.*1 ∧ NoDup (catalog_values c) ∧
  (∀ k v, (k, v) ∈ c ↔ lookup_key c k = Some v) ∧
  (∀ k1 k2 v, lookup_key c k1 = Some v → lookup_key c k2 = Some v → k1 = k2).
Proof.
  intros Hc.
  assert (HF : Forall (fun c : catalog => NoDup c.*1 ∧ NoDup (catalog_values c)) catalogs)
    by (apply (bool_decide_unpack _); vm_compute; exact I).
  rewrite Forall_forall in HF. destruct (HF c Hc) as [Hkeys Hvals].
  split_and!; [done | done | intros k v; by apply lookup_key_elem_of |].
  intros k1 k2 v H1 H2.
  apply (lookup_key_elem_of c _ _ Hkeys) in H1, H2.
  by apply NoDup_values_key with c v.
Qed.

Lemma catalog_lookup_unambiguous_TaskStatuses :
  NoDup TaskStatuses.*1 ∧ NoDup (catalog_values TaskStatuses) ∧
  (("IN_PROGRESS", "INPROGRESS") ∈ TaskStatuses ↔
   lookup_key TaskStatuses "IN_PROGRESS" = Some "INPROGRESS").
Proof.
  destruct (catalog_lookup_unambiguous TaskStatuses) as (Hk & Hv & Hl & _).
  - unfold catalogs. do 3 apply list_elem_of_further. apply list_elem_of_here.
  - split_and!; [done | done | apply Hl].
Defined.

(** X14: [PageNames], [ContentWizardPages], [TaskTypes] and
    [TaskStatuses] share no value: a token of one of them is a token of
    no other.  ([TransferTypes] repeats three [TaskTypes] values.) *)
Theorem primary_catalogs_share_no_value c1 c2 v :
  c1 ∈ primary_catalogs → c2 ∈ primary_catalogs → c1 ≠ c2 →
  v ∈ catalog_values c1 → v ∉ catalog_values c2.
Proof.
  intros H1 H2 Hne Hv.
  assert (HF : Forall (fun c1 => Forall (fun c2 => c1 ≠ c2 →
                 Forall (fun v => v ∉ catalog_values c2) (catalog_values c1))
                 primary_catalogs) primary_catalogs)
    by (apply (bool_decide_unpack _); vm_compute; exact I).
  rewrite Forall_forall in HF. specialize (HF c1 H1).
  rewrite Forall_forall in HF. specialize (HF c2 H2 Hne).
  rewrite Forall_forall in HF. by apply HF.
Qed.

Lemma primary_catalogs_share_no_value_EXPORT :
  ("EXPORT" ∉ catalog_values PageNames) ∧ ("EXPORT" ∉ catalog_values TaskTypes).
Proof.
  assert (Hw : ContentWizardPages ∈ primary_catalogs)
    by (unfold primary_catalogs; apply list_elem_of_further, list_elem_of_here).
  assert (Hv : "EXPORT" ∈ catalog_values ContentWizardPages)
    by (apply (bool_decide_unpack _); vm_compute; exact I).
  split.
  - apply (primary_catalogs_share_no_value ContentWizardPages PageNames "EXPORT");
      [done | apply list_elem_of_here | discriminate | done].
  - apply (primary_catalogs_share_no_value ContentWizardPages TaskTypes "EXPORT");
      [done | do 2 apply list_elem_of_further; apply list_elem_of_here
      | discriminate | done].
Defined.
